(** * Cyclical step-sizes notebook: a shallow embedding and its properties

    The development follows the cells of
    [sobolev/examples/cyclical_learning_rates.ipynb]:

    - [HeavyBall2D]: the two heavy-ball loops of the 2D animation cell, over
      an arbitrary scalar type (no law of arithmetic is assumed, so what is
      proved there holds for IEEE doubles as well as for real numbers);
    - [Frames]: the per-frame file names built with ['%02d' % i];
    - [ResidualPolynomial], [LinkFunction], [SpectralDensity],
      [RobustRegion], [Landscape], [RateComparison]: the closed-form
      evaluators ([poly_gd], [poly_polyak], [poly_cyclical], [sigma], [zeta],
      [sigma_r], [cyclical_rate]) and the derivations of the inner spectral
      bounds, over the real numbers: numpy's float64 arithmetic is read as
      exact real arithmetic there. *)

From Stdlib Require Import Reals Lra Lia List Arith Bool String Ascii.
From Stdlib Require Import DecimalString.
From Stdlib Require DecimalNat DecimalFacts.
Import ListNotations.

(** ** The 2D heavy-ball animation cell *)

Module HeavyBall2D.

(** The scalar operations the cell uses. [sq x] is [x ** 2]. *)
Class Scalar (A : Type) := {
  zero : A;
  one : A;
  two : A;
  add : A -> A -> A;
  sub : A -> A -> A;
  mul : A -> A -> A;
  div : A -> A -> A;
  sqrt : A -> A;
  sq : A -> A
}.

Declare Scope sc_scope.
Delimit Scope sc_scope with sc.
Infix "+" := add : sc_scope.
Infix "-" := sub : sc_scope.
Infix "*" := mul : sc_scope.
Infix "/" := div : sc_scope.

(** A numpy array of shape (2,) and one of shape (2, 2). *)
Record vec2 (A : Type) := Vec2 { v0 : A; v1 : A }.
Arguments Vec2 {A} _ _.
Arguments v0 {A} _.
Arguments v1 {A} _.

Record mat2 (A : Type) := Mat2 { row0 : vec2 A; row1 : vec2 A }.
Arguments Mat2 {A} _ _.
Arguments row0 {A} _.
Arguments row1 {A} _.

Section Ops.
Context {A : Type} `{Scalar A}.
Local Open Scope sc_scope.

(** [a - b] and [a + b] on arrays, [c * a] with a scalar [c], [H @ x]. *)
Definition vsub (a b : vec2 A) : vec2 A := Vec2 (v0 a - v0 b) (v1 a - v1 b).
Definition vadd (a b : vec2 A) : vec2 A := Vec2 (v0 a + v0 b) (v1 a + v1 b).
Definition smul (c : A) (a : vec2 A) : vec2 A := Vec2 (c * v0 a) (c * v1 a).
Definition dot (a b : vec2 A) : A := v0 a * v0 b + v1 a * v1 b.
Definition matvec (M : mat2 A) (x : vec2 A) : vec2 A :=
  Vec2 (dot (row0 M) x) (dot (row1 M) x).

(** [np.zeros((n, 2))]. *)
Definition zeros (n : nat) : list (vec2 A) := repeat (Vec2 zero zero) n.

(** [a[i] = x[:]] on an array of rows: the row is overwritten in place; an
    index past the end raises IndexError in numpy and is [None] here. *)
Fixpoint set_row (i : nat) (x : vec2 A) (a : list (vec2 A)) {struct a}
  : option (list (vec2 A)) :=
  match a, i with
  | [], _ => None
  | _ :: rest, O => Some (x :: rest)
  | r :: rest, S j => option_map (cons r) (set_row j x rest)
  end.

(** The variables a loop of the cell reads and writes. [ht] is bound by
    the cyclical loop only, and is unbound ([None]) until its first
    assignment. *)
Record loop_state := LoopState {
  xt : vec2 A;
  xt_old : vec2 A;
  ht : option A;
  all_iterates : list (vec2 A)
}.

(** What the two loop bodies have in common: the pass at index [i] stores
    the current [xt] in row [i], keeps it as the next [xt_old], and fails
    only when row [i] does not exist. *)
Definition stores_iterate (body : nat -> loop_state -> option loop_state) : Prop :=
  forall i s,
    match body i s with
    | Some s' => set_row i (xt s) (all_iterates s) = Some (all_iterates s')
                 /\ xt_old s' = xt s
    | None => set_row i (xt s) (all_iterates s) = None
    end.

Section Problem.
(** [H], [x_init], [max_iter]; [L] and [mu] are what
    [np.linalg.eigvalsh(H).max()] and [.min()] returned; [R] is the
    relative gap (0.9 in the notebook). *)
Variables (Hess : mat2 A) (x_init : vec2 A) (max_iter : nat).
Variables (L mu R : A).

(** *** Polyak momentum *)

Definition h : A := sq (two / (sqrt L + sqrt mu)).
Definition m_polyak : A :=
  sq ((sqrt L - sqrt mu) / (sqrt L + sqrt mu)).

Definition momentum_init : loop_state :=
  LoopState x_init x_init None (zeros max_iter).

(** One pass through the body of the first [for i in range(max_iter)]. *)
Definition momentum_body (i : nat) (s : loop_state) : option loop_state :=
  match set_row i (xt s) (all_iterates s) with
  | None => None
  | Some arr =>
    let grad_t := matvec Hess (xt s) in
    let tmp := xt s in
    let xt' :=
      if i =? 0 then vsub (xt s) (smul (two / (L + mu)) grad_t)
      else vadd (vsub (xt s) (smul h grad_t))
                (smul m_polyak (vsub (xt s) (xt_old s))) in
    Some (LoopState xt' tmp (ht s) arr)
  end.

(** *** Cyclical heavy ball *)

Definition mu1 : A := mu.
Definition L2 : A := L.
Definition rho : A := (L2 + mu1) / (L2 - mu1).
Definition L1 : A := mu + (one - R) * (L - mu) / two.
Definition mu2 : A := L - (one - R) * (L - mu) / two.
Definition m_cyclical : A :=
  sq ((sqrt (sq rho - sq R) - sqrt (sq rho - one)) / sqrt (one - sq R)).

Definition cyclical_init : loop_state :=
  LoopState x_init x_init None (zeros max_iter).

(** One pass through the body of the second loop: [if i == 0], then
    [elif i % 2 == 0], then [elif i % 2 == 1]; when no test holds
    nothing is assigned to [xt]. *)
Definition cyclical_body (i : nat) (s : loop_state) : option loop_state :=
  match set_row i (xt s) (all_iterates s) with
  | None => None
  | Some arr =>
    let grad_t := matvec Hess (xt s) in
    let tmp := xt s in
    if i =? 0 then
      Some (LoopState (vsub (xt s) (smul (two / (L + mu)) grad_t))
                      tmp (ht s) arr)
    else if i mod 2 =? 0 then
      let ht' := (one + m_cyclical) / L1 in
      Some (LoopState (vadd (vsub (xt s) (smul ht' grad_t))
                            (smul m_cyclical (vsub (xt s) (xt_old s))))
                      tmp (Some ht') arr)
    else if i mod 2 =? 1 then
      let ht' := (one + m_cyclical) / mu2 in
      Some (LoopState (vadd (vsub (xt s) (smul ht' grad_t))
                            (smul m_cyclical (vsub (xt s) (xt_old s))))
                      tmp (Some ht') arr)
    else
      Some (LoopState (xt s) tmp (ht s) arr)
  end.

(** [for i in range(n): body], starting at index [i0]. *)
Fixpoint for_range (body : nat -> loop_state -> option loop_state)
         (i0 n : nat) (s : loop_state) : option loop_state :=
  match n with
  | O => Some s
  | S k =>
    match body i0 s with
    | None => None
    | Some s' => for_range body (S i0) k s'
    end
  end.

(** The state after the first [n] iterations of each loop, and the two
    arrays the cell leaves behind. *)
Definition momentum_after (n : nat) : option loop_state :=
  for_range momentum_body 0 n momentum_init.
Definition cyclical_after (n : nat) : option loop_state :=
  for_range cyclical_body 0 n cyclical_init.

Definition all_iterates_momentum : option (list (vec2 A)) :=
  option_map all_iterates (momentum_after max_iter).
Definition all_iterates_cyclical : option (list (vec2 A)) :=
  option_map all_iterates (cyclical_after max_iter).

End Problem.
End Ops.

Arguments loop_state : clear implicits.

End HeavyBall2D.

(** ** Per-frame file names *)

Module Frames.
Local Open Scope string_scope.

(** ['%02d' % i] for an index [i >= 0]: the decimal digits of [i], padded on
    the left with ['0'] up to two characters. *)
Definition fmt_02d (i : nat) : string :=
  let digits := NilZero.string_of_uint (Nat.to_uint i) in
  match String.length digits with
  | 0 => "00"
  | 1 => "0" ++ digits
  | _ => digits
  end.

(** [range(start, stop, step)] for a positive [step]. *)
Definition range3 (start stop step : nat) : list nat :=
  map (fun k => start + k * step) (seq 0 ((stop - start + step - 1) / step)).

(** The [f_path] assignment of each frame loop, as a function of the loop
    variable, and the values the loop variable takes. *)
Definition f_path_comparison (i : nat) : string :=
  "comparison_cyclical_" ++ fmt_02d i ++ ".png".
Definition idx_comparison (max_iter : nat) : list nat := seq 0 max_iter.

(** ['CyclicalResidualPolynomial%02d.png' % (t // 2)] for [t] in
    [range(2, 19, 2)]. *)
Definition f_path_residual (t : nat) : string :=
  "CyclicalResidualPolynomial" ++ fmt_02d (t / 2) ++ ".png".
Definition idx_residual : list nat := range3 2 19 2.

(** [enumerate] over the concatenation of two [linspace(_, _, 20)]. *)
Definition f_path_link_constant (i : nat) : string :=
  "link_function_constant_" ++ fmt_02d i ++ ".png".
Definition f_path_link_cyclical (i : nat) : string :=
  "link_function_cyclical_" ++ fmt_02d i ++ ".png".
Definition idx_link : list nat := seq 0 (20 + 20).

(** [enumerate] over [all_R] followed by its reverse, [all_R] of 30 points. *)
Definition f_path_robust (i_R : nat) : string :=
  "robust_region_cyclical_" ++ fmt_02d i_R ++ ".png".
Definition idx_robust : list nat := seq 0 (30 + 30).

(** The same with [all_R] of 40 points. *)
Definition f_path_rate (it : nat) : string :=
  "rate_convergence_cyclical_" ++ fmt_02d it ++ ".png".
Definition idx_rate : list nat := seq 0 (40 + 40).

(** [all_kappa = np.logspace(0, -4, 20)[1:]] has 19 entries. *)
Definition f_path_asymptotic (i : nat) : string :=
  "asymptotic_rate_" ++ fmt_02d i ++ ".png".
Definition idx_asymptotic : list nat := seq 0 (19 + 19).

(** The (path, frame number) pairs of one loop. *)
Definition frames_of (f : nat -> string) (num : nat -> nat) (idx : list nat)
  : list (string * nat) :=
  map (fun i => (f i, num i)) idx.

(** Every (prefix, path, frame number) a frame loop produces, with
    [max_iter = 10] as in the notebook: the loops whose format string has an
    underscore before ['%02d'], then the residual-polynomial loop. *)
Definition underscore_frames : list (string * string * nat) :=
  let tag p := map (fun '(s, n) => (p, s, n)) in
  tag "comparison_cyclical"
      (frames_of f_path_comparison (fun i => i) (idx_comparison 10))
  ++ tag "link_function_constant"
      (frames_of f_path_link_constant (fun i => i) idx_link)
  ++ tag "link_function_cyclical"
      (frames_of f_path_link_cyclical (fun i => i) idx_link)
  ++ tag "robust_region_cyclical"
      (frames_of f_path_robust (fun i => i) idx_robust)
  ++ tag "rate_convergence_cyclical"
      (frames_of f_path_rate (fun i => i) idx_rate)
  ++ tag "asymptotic_rate"
      (frames_of f_path_asymptotic (fun i => i) idx_asymptotic).

Definition residual_frames : list (string * string * nat) :=
  map (fun '(s, n) => ("CyclicalResidualPolynomial", s, n))
      (frames_of f_path_residual (fun t => t / 2) idx_residual).

Definition all_frames : list (string * string * nat) :=
  underscore_frames ++ residual_frames.

(** The naming convention in the spec's words: a prefix, an underscore, the
    frame number as two decimal digits, ['.png']. *)
Definition digit (d : nat) : ascii := ascii_of_nat (48 + d).

Definition two_digits (n : nat) : string :=
  String (digit (n / 10)) (String (digit (n mod 10)) EmptyString).

Definition follows_convention (path : string) : Prop :=
  exists (prefix : string) (n : nat),
    n < 100 /\ path = prefix ++ "_" ++ two_digits n ++ ".png".

(** Whether a string contains the character [c]. *)
Fixpoint contains (c : ascii) (s : string) : bool :=
  match s with
  | EmptyString => false
  | String a rest => Ascii.eqb a c || contains c rest
  end.

End Frames.

(** ** numpy and scipy operations over the reals *)

Module Np.
Local Open Scope R_scope.

(** [np.sign]. *)
Definition sign (x : R) : R :=
  if Rlt_dec x 0 then -1 else if Rlt_dec 0 x then 1 else 0.

(** [a > b] as a boolean mask entry. *)
Definition gtb (a b : R) : bool := if Rlt_dec b a then true else false.

(** [np.sqrt] where the property at hand is about its domain: a negative
    argument gives NaN, which is [None]. Elsewhere [np.sqrt] is Stdlib's
    [sqrt] and [/] is Stdlib's total division, and the theorems carry the
    hypotheses that keep square-root arguments non-negative and divisors
    non-zero. *)
Definition sqrt_nan (x : R) : option R :=
  if Rlt_dec x 0 then None else Some (sqrt x).

(** [-v] on a value that may be NaN. *)
Definition neg_nan (v : option R) : option R := option_map Ropp v.

(** [x ** y] on floats for a base [x >= 0] (and [y >= 0] when [x = 0]). *)
Definition power (x y : R) : R :=
  if Req_dec_T x 0 then (if Req_dec_T y 0 then 1 else 0) else Rpower x y.

(** [special.eval_chebyt(n, x)] and [special.eval_chebyu(n, x)] at an
    integer degree [n >= 0]: the Chebyshev polynomials of the first and
    second kind, by their common three-term recurrence
    [P_{k+2} = 2 x P_{k+1} - P_k]. [cheb_pair p0 p1 n x] is
    [(P_n, P_{n+1})]. *)
Fixpoint cheb_pair (p0 p1 : R) (n : nat) (x : R) : R * R :=
  match n with
  | O => (p0, p1)
  | S k => let '(p, q) := cheb_pair p0 p1 k x in (q, 2 * x * q - p)
  end.

Definition eval_chebyt (n : nat) (x : R) : R := fst (cheb_pair 1 x n x).
Definition eval_chebyu (n : nat) (x : R) : R := fst (cheb_pair 1 (2 * x) n x).

(** [np.linspace(start, stop, num)]. *)
Definition linspace (start stop : R) (num : nat) : list R :=
  let step := (stop - start) / INR (num - 1) in
  map (fun i => start + INR i * step) (seq 0 num).

(** [x[idx]] and [out[idx] = vals] for a boolean mask [idx]. *)
Fixpoint select {A : Type} (idx : list bool) (x : list A) : list A :=
  match idx, x with
  | b :: idx', a :: x' => if b then a :: select idx' x' else select idx' x'
  | _, _ => []
  end.

Fixpoint put {A : Type} (idx : list bool) (out vals : list A) : list A :=
  match idx, out with
  | b :: idx', o :: out' =>
    if b then
      match vals with
      | v :: vals' => v :: put idx' out' vals'
      | [] => o :: put idx' out' []
      end
    else o :: put idx' out' vals
  | _, _ => out
  end.

(** A value that is a 0-d scalar or a 1-d array, with numpy's broadcasting
    of a scalar against an array. *)
Inductive ndarray := Scalar0 (x : R) | Array1 (xs : list R).

Definition nd_map (f : R -> R) (a : ndarray) : ndarray :=
  match a with
  | Scalar0 x => Scalar0 (f x)
  | Array1 xs => Array1 (map f xs)
  end.

(** Elementwise [f a b]; two arrays are paired entry by entry (they have the
    same length wherever this is used). *)
Definition nd_map2 (f : R -> R -> R) (a b : ndarray) : ndarray :=
  match a, b with
  | Scalar0 x, Scalar0 y => Scalar0 (f x y)
  | Scalar0 x, Array1 ys => Array1 (map (f x) ys)
  | Array1 xs, Scalar0 y => Array1 (map (fun x => f x y) xs)
  | Array1 xs, Array1 ys => Array1 (map (fun '(x, y) => f x y) (combine xs ys))
  end.


End Np.

(** ** Module-level variables and the functions that read them *)

Module Env.

(** The notebook's global variables that a function body reads. *)
Record Globals := MkGlobals { glob_t : nat; glob_mu : R; glob_L : R }.

(** A function call: it receives the globals and returns its value together
    with the globals it leaves behind. *)
Definition Call (A : Type) : Type := Globals -> A * Globals.

Definition ret {A} (a : A) : Call A := fun g => (a, g).
Definition bind {A B} (c : Call A) (k : A -> Call B) : Call B :=
  fun g => let '(a, g') := c g in k a g'.
Definition read {A} (field : Globals -> A) : Call A := fun g => (field g, g).

Definition value {A} (c : Call A) (g : Globals) : A := fst (c g).
Definition globals_after {A} (c : Call A) (g : Globals) : Globals := snd (c g).

End Env.

Declare Scope call_scope.
Delimit Scope call_scope with call.
Notation "x <- c ;; k" := (Env.bind c (fun x => k))
  (at level 61, c at next level, right associativity) : call_scope.

(** ** Residual polynomials

    The functions are given at one entry [x] of their array argument; numpy
    applies them entry by entry. *)

Module ResidualPolynomial.
Import Env.
Local Open Scope R_scope.
Local Open Scope call_scope.

(** [poly_gd(x, t)] reads the globals [mu] and [L]; its [t] is the
    parameter. *)
Definition poly_gd (x : R) (t : nat) : Call R :=
  mu <- read glob_mu ;;
  L <- read glob_L ;;
  let step_size := 2 / (mu + L) in
  ret ((1 - step_size * x) ^ t).

(** [poly_polyak(x, low, high, degree)]: the Chebyshev parts are taken at
    [degree], the factor [m**(t/2)] at the global [t]. *)
Definition poly_polyak (x low high : R) (degree : nat) : Call R :=
  let m := ((sqrt high - sqrt low) / (sqrt high + sqrt low)) ^ 2 in
  let h := (2 / (sqrt high + sqrt low)) ^ 2 in
  let s := (1 + m - h * x) / (2 * sqrt m) in
  let cheb1_part := Np.eval_chebyt degree s in
  let cheb2_part := Np.eval_chebyu degree s in
  t <- read glob_t ;;
  ret (Np.power m (INR t / 2)
       * ((2 * m / (1 + m)) * cheb1_part + ((1 - m) / (1 + m)) * cheb2_part)).

(** [poly_cyclical(x, mu1, L1, mu2, L2, degree)]. *)
Definition poly_cyclical (x mu1 L1 mu2 L2 : R) (degree : nat) : Call R :=
  let rho := (L2 + mu1) / (L2 - mu1) in
  let R := (mu2 - L1) / (L2 - mu1) in
  let m := ((sqrt (rho ^ 2 - R ^ 2) - sqrt (rho ^ 2 - 1)) / sqrt (1 - R ^ 2)) ^ 2 in
  let h0 := (1 + m) / L1 in
  let h1 := (1 + m) / mu2 in
  let tmp := (1 + m - h0 * x) * (1 + m - h1 * x) in
  let s := sqrt (Rabs tmp) * Np.sign tmp / (2 * sqrt m) in
  let cheb1_part := Np.eval_chebyt degree s in
  let cheb2_part := Np.eval_chebyu degree s in
  t <- read glob_t ;;
  let tmp := Np.power m (INR t / 2)
             * ((2 * m / (1 + m)) * cheb1_part + ((1 - m) / (1 + m)) * cheb2_part) in
  ret tmp.

End ResidualPolynomial.

(** ** Link functions *)

Module LinkFunction.
Import Env.
Local Open Scope R_scope.
Local Open Scope call_scope.

(** [sigma(x, m, h)] at one entry of [x]. *)
Definition sigma (x m h : R) : Call R :=
  ret ((1 + m - h * x) / (2 * sqrt m)).

(** The two masked assignments of [zeta] take these values at an entry
    [xi]: under [idx] and under [~idx]. *)
Definition zeta_pos (m h0 h1 xi : R) : option R :=
  Np.sqrt_nan ((1 + m - h0 * xi) * (1 + m - h1 * xi) / (4 * m)).
Definition zeta_neg (m h0 h1 xi : R) : option R :=
  Np.neg_nan (Np.sqrt_nan ((1 + m - h0 * xi) * (1 + m - h1 * xi) / (4 * m))).

(** [zeta(x, m, h0, h1)] on an array [x]; an entry of the result is [None]
    when it is NaN. *)
Definition zeta (x : list R) (m h0 h1 : R) : Call (list (option R)) :=
  let idx := map (fun xi => Np.gtb (1 + m - h0 * xi) 0
                            && Np.gtb (1 + m - h1 * xi) 0) x in
  let out := map (fun _ => Some 0) x in
  let out := Np.put idx out (map (zeta_pos m h0 h1) (Np.select idx x)) in
  let out := Np.put (map negb idx) out
                    (map (zeta_neg m h0 h1) (Np.select (map negb idx) x)) in
  ret out.

(** The cyclical link-function loop: the values its [R] takes, and the inner
    bounds it derives from the globals [mu], [L] and [R]. *)
Definition loop_R : list R := Np.linspace 0 0.5 20 ++ Np.linspace 0.5 0 20.
Definition L1 (mu L R : R) := mu + (1 - R) * (L - mu) / 2.
Definition mu2 (mu L R : R) := L - (1 - R) * (L - mu) / 2.

End LinkFunction.

(** ** Spectral density *)

Module SpectralDensity.
Local Open Scope R_scope.






End SpectralDensity.

(** ** Robust region *)

Module RobustRegion.
Import Env.
Local Open Scope R_scope.
Local Open Scope call_scope.

(** [sigma_r(x, m, r)] reads the globals [L] and [mu]. *)
Definition sigma_r (x m r : R) : Call R :=
  L <- read glob_L ;;
  mu <- read glob_mu ;;
  let h1 := (1 + m) / (0.5 * (L + mu) - r * 0.5 * (L - mu)) in
  let h0 := (1 + m) / (0.5 * (L + mu) + r * 0.5 * (L - mu)) in
  ret (Rabs ((1 + m - h0 * x) * (1 + m - h1 * x) / (2 * m) - 1)).

(** The loop of the cell runs over [all_R] and then over [all_R[::-1]]. *)
Definition all_R : list R := Np.linspace 0 1.0 30.
Definition loop_R : list R := all_R ++ rev all_R.
Definition L1 (mu L R : R) := mu + (1 - R) * (L - mu) / 2.
Definition mu2 (mu L R : R) := L - (1 - R) * (L - mu) / 2.

End RobustRegion.

(** ** Landscape *)

Module Landscape.
Import Env.
Local Open Scope R_scope.
Local Open Scope call_scope.

(** The cell redefines [sigma] with two step sizes. *)
Definition sigma (x m h0 h1 : R) : Call R :=
  ret (2 * ((1 + m - h0 * x) / (2 * sqrt m))
         * ((1 + m - h1 * x) / (2 * sqrt m)) - 1).

Definition smallest_R : R := 0.75.
Definition all_R : list R := Np.linspace 0 smallest_R 40.
Definition loop_R : list R := all_R ++ rev all_R.
Definition L1 (mu1 L2 R : R) := (mu1 + L2) / 2 - (L2 - mu1) * R / 2.
Definition mu2 (mu1 L2 R : R) := (mu1 + L2) / 2 + (L2 - mu1) * R / 2.

End Landscape.

(** ** Convergence rate comparison *)

Module RateComparison.
Import Env.
Local Open Scope R_scope.
Local Open Scope call_scope.

(** [cyclical_rate(kappa, R)] for a 0-d [kappa] and an array [R]
    ([len(R)] is taken when [rho.shape == ()]). *)
Definition cyclical_rate (kappa : R) (R : list R)
  : Call (Np.ndarray * Np.ndarray * Np.ndarray) :=
  let rho := Np.Scalar0 ((1 + kappa) / (1 - kappa)) in
  let rho :=
    match rho with
    | Np.Scalar0 r =>
      if 1 <? List.length R then Np.Array1 (repeat r (List.length R)) else rho
    | _ => rho
    end in
  let r_polyak := Np.nd_map (fun rho => rho - sqrt (rho ^ 2 - 1)) rho in
  let r_cyclical :=
    Np.nd_map2 (fun rho R => (sqrt (rho ^ 2 - R ^ 2) - sqrt (rho ^ 2 - 1))
                             / sqrt (1 - R ^ 2)) rho (Np.Array1 R) in
  let r_approx :=
    Np.nd_map2 (fun r_polyak R => 1 - (1 - r_polyak) / sqrt (1 - R ^ 2))
               r_polyak (Np.Array1 R) in
  ret (r_polyak, r_cyclical, r_approx).

End RateComparison.

(** The real numbers as scalars of the heavy-ball cell. *)
#[export] Instance R_Scalar : HeavyBall2D.Scalar R := {|
  HeavyBall2D.zero := 0%R;
  HeavyBall2D.one := 1%R;
  HeavyBall2D.two := 2%R;
  HeavyBall2D.add := Rplus;
  HeavyBall2D.sub := Rminus;
  HeavyBall2D.mul := Rmult;
  HeavyBall2D.div := Rdiv;
  HeavyBall2D.sqrt := sqrt;
  HeavyBall2D.sq := fun x => (x ^ 2)%R
|}.

(** The inputs of the 2D animation cell as the notebook sets them: [H] is
    diagonal, so its extreme eigenvalues are its diagonal entries. *)
Module Inputs2D.
Local Open Scope R_scope.
Definition Hess : HeavyBall2D.mat2 R :=
  HeavyBall2D.Mat2 (HeavyBall2D.Vec2 2 0) (HeavyBall2D.Vec2 0 0.2).
Definition x_init : HeavyBall2D.vec2 R := HeavyBall2D.Vec2 1.5 2.5.
Definition max_iter : nat := 10.
Definition L : R := 2.
Definition mu : R := 0.2.
Definition R_gap : R := 0.9.
End Inputs2D.

(** ** Cells that assign module-level variables *)

Module Cell.
Import Env.
Local Open Scope R_scope.
Local Open Scope call_scope.

Definition assign_L (v : R) : Call unit :=
  fun g => (tt, MkGlobals (glob_t g) (glob_mu g) v).

(** [for x in xs: body], collecting what each pass produces. *)
Fixpoint for_each {A B : Type} (xs : list A) (body : A -> Call B) : Call (list B) :=
  match xs with
  | [] => ret []
  | x :: rest => b <- body x ;; bs <- for_each rest body ;; ret (b :: bs)
  end.


(** The constant step-size link-function cell: its loop variable [L] is the
    module-level [L]; each pass produces the curve [sigma(x_grid, m, h)]. *)
Definition link_constant_cell : Call (list (list R)) :=
  let x_grid := Np.linspace 0 2 1000 in
  for_each (Np.linspace 1 2 20 ++ Np.linspace 2 1 20) (fun Lv =>
    _ <- assign_L Lv ;;
    L <- read glob_L ;;
    mu <- read glob_mu ;;
    let m := ((sqrt L - sqrt mu) / (sqrt L + sqrt mu)) ^ 2 in
    let h := (2 / (sqrt L + sqrt mu)) ^ 2 in
    for_each x_grid (fun x => LinkFunction.sigma x m h)).

(** The cyclical step-size link-function cell: [rho] is computed once from
    the module-level [L] and [mu]; each pass produces the curve
    [zeta(x_grid, m, h0, h1)]. *)
Definition link_cyclical_cell : Call (list (list (option R))) :=
  let x_grid := Np.linspace 0 2 1000 in
  L <- read glob_L ;;
  mu <- read glob_mu ;;
  let rho := (L + mu) / (L - mu) in
  for_each LinkFunction.loop_R (fun R =>
    let m := (sqrt (rho ^ 2 - R ^ 2) - sqrt (rho ^ 2 - 1)) ^ 2 / (1 - R ^ 2) in
    L <- read glob_L ;;
    mu <- read glob_mu ;;
    let L1 := mu + (1 - R) * (L - mu) / 2 in
    let mu2 := L - (1 - R) * (L - mu) / 2 in
    let h0 := (1 + m) / L1 in
    let h1 := (1 + m) / mu2 in
    LinkFunction.zeta x_grid m h0 h1).

End Cell.

(** ** The robust-region cell *)

Module RobustRegionCell.
Import Env.
Local Open Scope R_scope.
Local Open Scope call_scope.


(** [optimal_m] of the pass for the gap [R]; [rho] is the module-level
    [(L + mu) / (L - mu)] the cell computes first. *)
Definition optimal_m (rho R : R) :=
  ((sqrt (rho ^ 2 - R ^ 2) - sqrt (rho ^ 2 - 1)) / sqrt (1 - R ^ 2)) ^ 2.

(** The entry of [rate] at one point [(m, r)] of the grid, in the pass for
    the gap [R]: [sqrt(m)] where the largest of the four [sigma_r] values is
    at most 1, NaN ([None]) elsewhere. *)
Definition rate_entry (R m r : R) : Call (option Rdefinitions.R) :=
  L <- read glob_L ;;
  mu <- read glob_mu ;;
  let L1 := mu + (1 - R) * (L - mu) / 2 in
  let mu2 := L - (1 - R) * (L - mu) / 2 in
  s1 <- RobustRegion.sigma_r mu m r ;;
  s2 <- RobustRegion.sigma_r L1 m r ;;
  s3 <- RobustRegion.sigma_r mu2 m r ;;
  s4 <- RobustRegion.sigma_r L m r ;;
  let smax := Rmax (Rmax (Rmax (Rabs s1) (Rabs s2)) (Rabs s3)) (Rabs s4) in
  ret (if Rle_dec smax 1 then Some (sqrt m) else None).

End RobustRegionCell.

(** ** The landscape cells *)

Module LandscapeCell.
Import Env.
Local Open Scope R_scope.
Local Open Scope call_scope.




(** [optimal_m], [optimal_h0] and [optimal_h1] of the pass for the gap [R]. *)
Definition optimal_m (rho R : R) :=
  ((sqrt (rho ^ 2 - R ^ 2) - sqrt (rho ^ 2 - 1)) / sqrt (1 - R ^ 2)) ^ 2.

(** [a <= b] as a boolean mask entry. *)
Definition leb (a b : R) : bool := if Rle_dec a b then true else false.

(** The entry of [rate] at one point [(h0_grid, h1_grid)] of the grid: NaN
    first; [sqrt(optimal_m)] where [sigma_star <= 1]; then, where
    [sigma_star <= (1 + optimal_m**2) / (2 * optimal_m)], the value
    [sqrt(optimal_m * (sigma_star + sqrt(sigma_star**2 - 1)))], which is NaN
    when the inner square root is. *)
Definition rate_entry (mu1 L1 mu2 L2 optimal_m h0_grid h1_grid : R)
  : Call (option R) :=
  let h0 := Rmin h0_grid h1_grid in
  let h1 := Rmax h0_grid h1_grid in
  s0 <- Landscape.sigma mu1 optimal_m h0 h1 ;;
  let tmp0 := Rabs s0 in
  s1 <- Landscape.sigma L1 optimal_m h0 h1 ;;
  let tmp1 := Rabs s1 in
  s2 <- Landscape.sigma mu2 optimal_m h0 h1 ;;
  let tmp2 := Rabs s2 in
  s3 <- Landscape.sigma L2 optimal_m h0 h1 ;;
  let tmp3 := Rabs s3 in
  let mid := (1 + optimal_m) * (h0 + h1) / (2 * h0 * h1) in
  let idx := (leb mu1 mid && leb mid L1) || (leb mu2 mid && leb mid L2) in
  s4 <- Landscape.sigma mid optimal_m h0 h1 ;;
  let tmp4 := if idx then Rabs s4 else 0 in
  let sigma_star := Rmax (Rmax (Rmax (Rmax tmp0 tmp1) tmp2) tmp3) tmp4 in
  let rate := None in
  let idx_robust := leb sigma_star 1 in
  let rate := if idx_robust then Some (sqrt optimal_m) else rate in
  let idx_convergent := leb sigma_star ((1 + optimal_m ^ 2) / (2 * optimal_m)) in
  let rate :=
    if idx_convergent then
      match Np.sqrt_nan (sigma_star ^ 2 - 1) with
      | Some root => Np.sqrt_nan (optimal_m * (sigma_star + root))
      | None => None
      end
    else rate in
  ret rate.

End LandscapeCell.

(** ** Loop states up to the step size

    The cyclical loop carries the variable [ht]; the Polyak loop does not
    assign it. *)

Module LoopRelation.


End LoopRelation.

(** * Properties *)

(** ** The heavy-ball loops *)

Module HeavyBall2DFacts.
Import HeavyBall2D.

Section Rows.
Context {A : Type} `{Scalar A}.

Lemma set_row_some (i : nat) (x : vec2 A) (a : list (vec2 A)) :
  i < List.length a -> exists a', set_row i x a = Some a'.
Proof.
  revert i; induction a as [|r rest IH]; intros i Hi; simpl in Hi; [lia|].
  destruct i as [|j]; simpl; [eauto|].
  destruct (IH j) as [a' Ha']; [lia|]. rewrite Ha'. simpl. eauto.
Qed.

Lemma set_row_length (i : nat) (x : vec2 A) (a a' : list (vec2 A)) :
  set_row i x a = Some a' -> List.length a' = List.length a.
Proof.
  revert i a'; induction a as [|r rest IH]; intros i a' E; simpl in E; [discriminate|].
  destruct i as [|j].
  - injection E as <-. reflexivity.
  - destruct (set_row j x rest) as [b|] eqn:Eb; simpl in E; [|discriminate].
    injection E as <-. simpl. f_equal. eapply IH; eauto.
Qed.

Lemma set_row_same (i : nat) (x : vec2 A) (a a' : list (vec2 A)) :
  set_row i x a = Some a' -> nth_error a' i = Some x.
Proof.
  revert i a'; induction a as [|r rest IH]; intros i a' E; simpl in E; [discriminate|].
  destruct i as [|j].
  - injection E as <-. reflexivity.
  - destruct (set_row j x rest) as [b|] eqn:Eb; simpl in E; [|discriminate].
    injection E as <-. simpl. eapply IH; eauto.
Qed.

Lemma set_row_other (i j : nat) (x : vec2 A) (a a' : list (vec2 A)) :
  set_row i x a = Some a' -> j <> i -> nth_error a' j = nth_error a j.
Proof.
  revert i j a'; induction a as [|r rest IH]; intros i j a' E Hj; simpl in E; [discriminate|].
  destruct i as [|i'].
  - injection E as <-. destruct j; [congruence|reflexivity].
  - destruct (set_row i' x rest) as [b|] eqn:Eb; simpl in E; [|discriminate].
    injection E as <-. destruct j as [|j']; simpl; [reflexivity|].
    eapply IH; eauto.
Qed.

Lemma for_range_snoc body (i0 n : nat) (s : loop_state A) :
  for_range body i0 (S n) s =
  match for_range body i0 n s with
  | Some s' => body (i0 + n) s'
  | None => None
  end.
Proof.
  revert i0 s; induction n as [|n IH]; intros i0 s.
  - simpl. rewrite Nat.add_0_r. destruct (body i0 s); reflexivity.
  - change (for_range body i0 (S (S n)) s)
      with (match body i0 s with
            | Some s' => for_range body (S i0) (S n) s'
            | None => None
            end).
    change (for_range body i0 (S n) s)
      with (match body i0 s with
            | Some s' => for_range body (S i0) n s'
            | None => None
            end).
    destruct (body i0 s) as [s'|]; [|reflexivity].
    rewrite IH. replace (S i0 + n) with (i0 + S n) by lia. reflexivity.
Qed.

(** The loop runs to its end, and leaves in row [j] the value [xt] had at
    the start of pass [j]. *)
Lemma for_range_rows body (init : loop_state A) :
  stores_iterate body ->
  forall n, n <= List.length (all_iterates init) ->
  exists s, for_range body 0 n init = Some s
    /\ List.length (all_iterates s) = List.length (all_iterates init)
    /\ forall j, j < n ->
         exists sj, for_range body 0 j init = Some sj
                    /\ nth_error (all_iterates s) j = Some (xt sj).
Proof.
  intros Hb n; induction n as [|n IH]; intros Hn.
  - exists init. repeat split; auto. intros j Hj; lia.
  - destruct IH as (s & Es & Hlen & Hrows); [lia|].
    rewrite for_range_snoc, Es. simpl.
    pose proof (Hb n s) as Hbn.
    destruct (body n s) as [s'|].
    + destruct Hbn as [Hset Hold].
      exists s'. split; [reflexivity|]. split.
      * rewrite (set_row_length _ _ _ _ Hset). exact Hlen.
      * intros j Hj. destruct (Nat.eq_dec j n) as [->|Hne].
        -- exists s. split; [exact Es|]. eapply set_row_same; eauto.
        -- destruct (Hrows j) as (sj & Ej & Hnth); [lia|].
           exists sj. split; [exact Ej|].
           rewrite (set_row_other _ _ _ _ _ Hset Hne). exact Hnth.
    + destruct (set_row_some n (xt s) (all_iterates s)) as [a' Ha']; [lia|].
      congruence.
Qed.

Lemma zeros_length (n : nat) : List.length (zeros n) = n.
Proof. apply repeat_length. Qed.

(** Pass [i] of a loop, seen from the whole run of [n] passes: the state
    [s] it starts from, the state [s'] it leaves, the row it stores, and
    where its [xt_old] comes from. *)
Lemma loop_trace body (init : loop_state A) :
  stores_iterate body ->
  forall n i, i < n -> n <= List.length (all_iterates init) ->
  exists s s' sf,
    for_range body 0 i init = Some s
    /\ body i s = Some s'
    /\ for_range body 0 (S i) init = Some s'
    /\ for_range body 0 n init = Some sf
    /\ nth_error (all_iterates sf) i = Some (xt s)
    /\ (i = 0 -> s = init)
    /\ (forall j, i = S j ->
          exists sp, for_range body 0 j init = Some sp /\ xt_old s = xt sp).
Proof.
  intros Hb n i Hi Hn.
  destruct (for_range_rows body init Hb n Hn) as (sf & Ef & _ & Hrows).
  destruct (Hrows i Hi) as (s & Es & Hrow).
  destruct (for_range_rows body init Hb (S i)) as (s' & Es' & _ & _); [lia|].
  pose proof Es' as Estep. rewrite for_range_snoc, Es in Estep. simpl in Estep.
  exists s, s', sf. repeat split; auto.
  - intros ->. simpl in Es. congruence.
  - intros j ->. rewrite for_range_snoc in Es.
    destruct (for_range body 0 j init) as [sp|] eqn:Ep; [|discriminate].
    exists sp. split; [reflexivity|]. simpl in Es.
    pose proof (Hb j sp) as Hj. rewrite Es in Hj. apply Hj.
Qed.

End Rows.

Lemma even_mod2 (n : nat) : (n mod 2 =? 0) = Nat.even n.
Proof.
  destruct (Nat.even n) eqn:E.
  - apply Nat.even_spec in E. destruct E as [k ->].
    apply Nat.eqb_eq. rewrite Nat.mul_comm. apply Nat.Div0.mod_mul.
  - apply Nat.eqb_neq. intros E0.
    assert (Nat.even n = true); [|congruence].
    apply Nat.even_spec. exists (n / 2).
    pose proof (Nat.div_mod_eq n 2). lia.
Qed.

Lemma odd_mod2 (n : nat) : (n mod 2 =? 1) = negb (Nat.even n).
Proof.
  rewrite <- even_mod2.
  pose proof (Nat.mod_upper_bound n 2 ltac:(lia)) as Hlt.
  destruct (n mod 2) as [|[|k]]; simpl; [reflexivity|reflexivity|lia].
Qed.

Section Loops.
Context {A : Type} `{Scalar A}.
Variables (Hess : mat2 A) (x_init : vec2 A) (max_iter : nat).
Variables (L mu R : A).
Local Open Scope sc_scope.

Lemma momentum_stores : stores_iterate (momentum_body Hess L mu).
Proof.
  intros i s. unfold momentum_body.
  destruct (set_row i (xt s) (all_iterates s)); simpl; auto.
Qed.

Lemma cyclical_stores : stores_iterate (cyclical_body Hess L mu R).
Proof.
  intros i s. unfold cyclical_body.
  destruct (set_row i (xt s) (all_iterates s)); [|reflexivity].
  destruct (i =? 0); [split; reflexivity|].
  destruct (i mod 2 =? 0); [split; reflexivity|].
  destruct (i mod 2 =? 1); split; reflexivity.
Qed.

(** C7. In the Polyak heavy-ball loop every pass [i < max_iter] runs, and
    stores its starting point in row [i] of [all_iterates_momentum]. Pass 0
    starts at [x_init] and is the plain gradient step
    [x - (2/(L+mu)) * (H @ x)]. Every later pass is
    [x_new = x_i - h*(H @ x_i) + m*(x_i - x_{i-1})], where [x_{i-1}] is the
    point pass [i-1] started from and [h], [m] are the two fixed values
    [(2/(sqrt L + sqrt mu))**2] and
    [((sqrt L - sqrt mu)/(sqrt L + sqrt mu))**2]. *)
Theorem polyak_update_fixed_coefficients (i : nat) :
  i < max_iter ->
  let m := sq ((sqrt L - sqrt mu) / (sqrt L + sqrt mu)) in
  let h := sq (two / (sqrt L + sqrt mu)) in
  exists s s' arr,
    momentum_after Hess x_init max_iter L mu i = Some s
    /\ momentum_after Hess x_init max_iter L mu (S i) = Some s'
    /\ all_iterates_momentum Hess x_init max_iter L mu = Some arr
    /\ nth_error arr i = Some (xt s)
    /\ (i = 0 ->
        xt s = x_init
        /\ xt s' = vsub (xt s) (smul (two / (L + mu)) (matvec Hess (xt s))))
    /\ (forall j, i = S j ->
        exists sp,
          momentum_after Hess x_init max_iter L mu j = Some sp
          /\ xt s' = vadd (vsub (xt s) (smul h (matvec Hess (xt s))))
                          (smul m (vsub (xt s) (xt sp)))).
Proof.
  intros Hi m h.
  destruct (loop_trace _ (momentum_init x_init max_iter) momentum_stores
              max_iter i Hi) as (s & s' & sf & Es & Eb & Es' & Ef & Hrow & H0 & Hprev).
  { simpl. rewrite zeros_length. lia. }
  exists s, s', (all_iterates sf).
  unfold all_iterates_momentum, momentum_after. rewrite Es, Es', Ef. simpl.
  repeat split; auto.
  - apply H0 in H1. subst s. reflexivity.
  - subst i. unfold momentum_body in Eb.
    destruct (set_row 0 (xt s) (all_iterates s)); [|discriminate].
    simpl in Eb. injection Eb as <-. reflexivity.
  - intros j ->. destruct (Hprev j eq_refl) as (sp & Ep & Hold).
    exists sp. split; [exact Ep|].
    unfold momentum_body in Eb.
    destruct (set_row (S j) (xt s) (all_iterates s)); [|discriminate].
    simpl in Eb. injection Eb as <-. simpl. rewrite Hold. reflexivity.
Qed.

(** C5. In the cyclical heavy-ball loop every pass [i] with
    [1 <= i < max_iter] runs and assigns [ht]: [(1+m)/L1] when [i] is
    even, [(1+m)/mu2] when [i] is odd, with the one momentum [m] of the
    cell; the update is [x_i - ht*(H @ x_i) + m*(x_i - x_{i-1})] with that
    [ht] and that [m]. No pass after the first falls through the
    [if]/[elif] chain. *)
Theorem cyclical_step_alternates (i : nat) :
  1 <= i -> i < max_iter ->
  let m := m_cyclical L mu R in
  let ht_i := if Nat.even i then (one + m) / L1 L mu R
              else (one + m) / mu2 L mu R in
  exists s s' sp,
    cyclical_after Hess x_init max_iter L mu R (i - 1) = Some sp
    /\ cyclical_after Hess x_init max_iter L mu R i = Some s
    /\ cyclical_after Hess x_init max_iter L mu R (S i) = Some s'
    /\ ht s' = Some ht_i
    /\ xt s' = vadd (vsub (xt s) (smul ht_i (matvec Hess (xt s))))
                    (smul m (vsub (xt s) (xt sp))).
Proof.
  intros H1 Hi m ht_i.
  destruct (loop_trace _ (cyclical_init x_init max_iter) cyclical_stores
              max_iter i Hi) as (s & s' & sf & Es & Eb & Es' & Ef & Hrow & _ & Hprev).
  { simpl. rewrite zeros_length. lia. }
  destruct i as [|j]; [lia|].
  destruct (Hprev j eq_refl) as (sp & Ep & Hold).
  exists s, s', sp. unfold cyclical_after.
  replace (S j - 1)%nat with j by lia. rewrite Ep, Es, Es'.
  repeat split; auto.
  - unfold cyclical_body in Eb.
    destruct (set_row (S j) (xt s) (all_iterates s)); [|discriminate].
    change (S j =? 0) with false in Eb. cbv iota in Eb.
    rewrite even_mod2, odd_mod2 in Eb. subst ht_i.
    destruct (Nat.even (S j)); cbv iota in Eb; simpl negb in Eb; cbv iota in Eb;
      injection Eb as <-; reflexivity.
  - unfold cyclical_body in Eb.
    destruct (set_row (S j) (xt s) (all_iterates s)); [|discriminate].
    change (S j =? 0) with false in Eb. cbv iota in Eb.
    rewrite even_mod2, odd_mod2 in Eb. subst ht_i.
    destruct (Nat.even (S j)); cbv iota in Eb; simpl negb in Eb; cbv iota in Eb;
      injection Eb as <-; cbn [xt]; rewrite Hold; reflexivity.
Qed.

(** C9. When the arrays have at least two rows, both loops run to their
    end, and the two trajectories agree on their first two rows: row 0 is
    [x_init] and row 1 is [x_init - (2/(L+mu)) * (H @ x_init)] in
    [all_iterates_momentum] and in [all_iterates_cyclical] alike. *)
Theorem first_two_iterates_agree :
  2 <= max_iter ->
  exists am ac,
    all_iterates_momentum Hess x_init max_iter L mu = Some am
    /\ all_iterates_cyclical Hess x_init max_iter L mu R = Some ac
    /\ nth_error am 0 = Some x_init
    /\ nth_error ac 0 = Some x_init
    /\ nth_error am 1
       = Some (vsub x_init (smul (two / (L + mu)) (matvec Hess x_init)))
    /\ nth_error ac 1 = nth_error am 1.
Proof.
  intros Hm.
  destruct (loop_trace _ (momentum_init x_init max_iter) momentum_stores
              max_iter 0) as (s0 & s1 & sf & _ & Eb0 & _ & Ef & Hrow0 & H0 & _);
    [lia|simpl; rewrite zeros_length; lia|].
  destruct (loop_trace _ (momentum_init x_init max_iter) momentum_stores
              max_iter 1) as (s1' & _ & sf' & Es1 & _ & _ & Ef' & Hrow1 & _ & _);
    [lia|simpl; rewrite zeros_length; lia|].
  destruct (loop_trace _ (cyclical_init x_init max_iter) (cyclical_stores)
              max_iter 0) as (c0 & c1 & cf & _ & Ec0 & _ & Ecf & Crow0 & C0 & _);
    [lia|simpl; rewrite zeros_length; lia|].
  destruct (loop_trace _ (cyclical_init x_init max_iter) (cyclical_stores)
              max_iter 1) as (c1' & _ & cf' & Ec1 & _ & _ & Ecf' & Crow1 & _ & _);
    [lia|simpl; rewrite zeros_length; lia|].
  rewrite Ef in Ef'. injection Ef' as <-.
  rewrite Ecf in Ecf'. injection Ecf' as <-.
  specialize (H0 eq_refl). specialize (C0 eq_refl). subst s0 c0.
  simpl in Es1, Ec1. rewrite Eb0 in Es1. rewrite Ec0 in Ec1.
  injection Es1 as <-. injection Ec1 as <-.
  unfold momentum_body in Eb0. unfold cyclical_body in Ec0.
  simpl xt in Eb0, Ec0.
  destruct (set_row 0 x_init (all_iterates (momentum_init x_init max_iter)));
    [|discriminate].
  destruct (set_row 0 x_init (all_iterates (cyclical_init x_init max_iter)));
    [|discriminate].
  simpl in Eb0, Ec0. injection Eb0 as <-. injection Ec0 as <-.
  exists (all_iterates sf), (all_iterates cf).
  unfold all_iterates_momentum, all_iterates_cyclical, momentum_after,
    cyclical_after. rewrite Ef, Ecf. simpl option_map.
  rewrite Hrow0, Crow0, Hrow1, Crow1. simpl. repeat split; reflexivity.
Qed.

End Loops.

(** The three statements at the notebook's own inputs. *)
Lemma polyak_update_fixed_coefficients_notebook :
  let m := sq ((sqrt Inputs2D.L - sqrt Inputs2D.mu)
               / (sqrt Inputs2D.L + sqrt Inputs2D.mu))%sc in
  let h := sq (two / (sqrt Inputs2D.L + sqrt Inputs2D.mu))%sc in
  exists s s' arr,
    momentum_after Inputs2D.Hess Inputs2D.x_init Inputs2D.max_iter
                   Inputs2D.L Inputs2D.mu 3 = Some s
    /\ momentum_after Inputs2D.Hess Inputs2D.x_init Inputs2D.max_iter
                      Inputs2D.L Inputs2D.mu 4 = Some s'
    /\ all_iterates_momentum Inputs2D.Hess Inputs2D.x_init Inputs2D.max_iter
                             Inputs2D.L Inputs2D.mu = Some arr
    /\ nth_error arr 3 = Some (xt s)
    /\ (3 = 0 ->
        xt s = Inputs2D.x_init
        /\ xt s' = vsub (xt s)
                        (smul (two / (Inputs2D.L + Inputs2D.mu))%sc
                              (matvec Inputs2D.Hess (xt s))))
    /\ (forall j, 3 = S j ->
        exists sp,
          momentum_after Inputs2D.Hess Inputs2D.x_init Inputs2D.max_iter
                         Inputs2D.L Inputs2D.mu j = Some sp
          /\ xt s' = vadd (vsub (xt s) (smul h (matvec Inputs2D.Hess (xt s))))
                          (smul m (vsub (xt s) (xt sp)))).
Proof.
  apply (polyak_update_fixed_coefficients
           Inputs2D.Hess Inputs2D.x_init Inputs2D.max_iter Inputs2D.L Inputs2D.mu 3).
  unfold Inputs2D.max_iter. lia.
Defined.

Lemma cyclical_step_alternates_notebook :
  let m := m_cyclical Inputs2D.L Inputs2D.mu Inputs2D.R_gap in
  let ht_i := ((one + m) / mu2 Inputs2D.L Inputs2D.mu Inputs2D.R_gap)%sc in
  exists s s' sp,
    cyclical_after Inputs2D.Hess Inputs2D.x_init Inputs2D.max_iter
                   Inputs2D.L Inputs2D.mu Inputs2D.R_gap 2 = Some sp
    /\ cyclical_after Inputs2D.Hess Inputs2D.x_init Inputs2D.max_iter
                      Inputs2D.L Inputs2D.mu Inputs2D.R_gap 3 = Some s
    /\ cyclical_after Inputs2D.Hess Inputs2D.x_init Inputs2D.max_iter
                      Inputs2D.L Inputs2D.mu Inputs2D.R_gap 4 = Some s'
    /\ ht s' = Some ht_i
    /\ xt s' = vadd (vsub (xt s) (smul ht_i (matvec Inputs2D.Hess (xt s))))
                    (smul m (vsub (xt s) (xt sp))).
Proof.
  apply (cyclical_step_alternates
           Inputs2D.Hess Inputs2D.x_init Inputs2D.max_iter
           Inputs2D.L Inputs2D.mu Inputs2D.R_gap 3);
    unfold Inputs2D.max_iter; lia.
Defined.

Lemma first_two_iterates_agree_notebook :
  exists am ac,
    all_iterates_momentum Inputs2D.Hess Inputs2D.x_init Inputs2D.max_iter
                          Inputs2D.L Inputs2D.mu = Some am
    /\ all_iterates_cyclical Inputs2D.Hess Inputs2D.x_init Inputs2D.max_iter
                             Inputs2D.L Inputs2D.mu Inputs2D.R_gap = Some ac
    /\ nth_error am 0 = Some Inputs2D.x_init
    /\ nth_error ac 0 = Some Inputs2D.x_init
    /\ nth_error am 1
       = Some (vsub Inputs2D.x_init
                    (smul (two / (Inputs2D.L + Inputs2D.mu))%sc
                          (matvec Inputs2D.Hess Inputs2D.x_init)))
    /\ nth_error ac 1 = nth_error am 1.
Proof.
  apply (first_two_iterates_agree
           Inputs2D.Hess Inputs2D.x_init Inputs2D.max_iter
           Inputs2D.L Inputs2D.mu Inputs2D.R_gap).
  unfold Inputs2D.max_iter. lia.
Defined.

End HeavyBall2DFacts.

(** ** Frame file names *)

Module FramesFacts.
Import Frames.
Local Open Scope string_scope.

Lemma contains_app (c : ascii) (s1 s2 : string) :
  contains c (s1 ++ s2) = contains c s1 || contains c s2.
Proof.
  induction s1 as [|a s1 IH]; simpl; [reflexivity|].
  rewrite IH. apply orb_assoc.
Qed.

(** Below 100, ['%02d'] prints exactly the tens digit and the units digit. *)
Lemma fmt_02d_two_digits (n : nat) : n < 100 -> fmt_02d n = two_digits n.
Proof.
  intros Hn.
  do 100 (destruct n as [|n]; [reflexivity|]).
  lia.
Qed.

(** The frame paths of a loop whose frame numbers stay below 100, for a
    format string [pre ++ sep ++ '%02d.png']. *)
Lemma frames_of_shape (sep pre : string) (f : nat -> string) (num : nat -> nat)
      (idx : list nat) :
  (forall i, In i idx -> num i < 100) ->
  (forall i, f i = pre ++ sep ++ fmt_02d (num i) ++ ".png") ->
  Forall (fun '(p, path, n) =>
            n < 100 /\ path = p ++ sep ++ two_digits n ++ ".png")
         (map (fun '(s, n) => (pre, s, n)) (frames_of f num idx)).
Proof.
  intros Hlt Hf. unfold frames_of. rewrite map_map.
  apply Forall_map, Forall_forall. intros i Hi.
  split; [auto|]. rewrite Hf, fmt_02d_two_digits by auto. reflexivity.
Qed.

(** C6, as the notebook has it. Every path of a frame loop is a fixed
    prefix, the frame number as two decimal digits, and ['.png']. In the
    loops that write [comparison_cyclical], [link_function_constant],
    [link_function_cyclical], [robust_region_cyclical],
    [rate_convergence_cyclical] and [asymptotic_rate] frames an underscore
    separates prefix and number, and the number is the loop index. The
    residual-polynomial loop writes [CyclicalResidualPolynomial] directly
    followed by the two digits of [t // 2], with no underscore anywhere in
    the path. *)
Theorem frame_paths_shape :
  Forall (fun '(p, path, n) =>
            n < 100 /\ path = p ++ "_" ++ two_digits n ++ ".png")
         underscore_frames
  /\ Forall (fun '(p, path, n) =>
               n < 100 /\ path = p ++ two_digits n ++ ".png")
            residual_frames
  /\ Forall (fun '(p, path, n) => contains "_" path = false) residual_frames.
Proof.
  assert (Hseq : forall k i, k <= 100 -> In i (seq 0 k) -> i < 100).
  { intros k i Hk Hi. apply in_seq in Hi. lia. }
  split; [|split].
  - unfold underscore_frames.
    repeat (apply Forall_app; split);
      (apply frames_of_shape; [intros i Hi; eapply Hseq; [|exact Hi]; simpl; lia
                              |intros i; reflexivity]).
  - unfold residual_frames. apply (frames_of_shape ""); [|intros i; reflexivity].
    intros t Ht. unfold idx_residual, range3 in Ht. simpl in Ht.
    repeat (destruct Ht as [<-|Ht]; [simpl; lia|]). destruct Ht.
  - unfold residual_frames, frames_of, idx_residual, range3. simpl.
    repeat (constructor; [reflexivity|]). constructor.
Qed.

(** C6 as stated fails on the first frame of the residual-polynomial loop:
    [t = 2] gives [CyclicalResidualPolynomial01.png], which has no
    underscore, so it is no [<prefix>_NN.png]. *)
Lemma residual_frame_breaks_convention :
  In 2 idx_residual
  /\ f_path_residual 2 = "CyclicalResidualPolynomial01.png"
  /\ ~ follows_convention (f_path_residual 2).
Proof.
  split; [simpl; auto|]. split; [reflexivity|].
  intros (prefix & n & _ & E).
  apply (f_equal (contains "_")) in E.
  rewrite contains_app in E. simpl in E.
  rewrite orb_true_r in E. discriminate.
Qed.

End FramesFacts.

(** ** numpy operations on the reals *)

Module NpFacts.
Import Np.
Local Open Scope R_scope.












End NpFacts.

(** ** Residual polynomials *)

Module ResidualPolynomialFacts.
Import Env Np NpFacts ResidualPolynomial.
Local Open Scope R_scope.













End ResidualPolynomialFacts.

(** ** Convergence rate comparison *)

Module RateComparisonFacts.
Import Env Np NpFacts RateComparison.
Local Open Scope R_scope.







End RateComparisonFacts.

(** ** Link functions *)

Module LinkFunctionFacts.
Import Env Np NpFacts LinkFunction.
Local Open Scope R_scope.

(** Two masked assignments through a mask and its complement fill every
    entry: with the first value where the mask holds, with the second
    elsewhere. *)
Lemma put_both {A B : Type} (p : A -> bool) (f g : A -> B) (x : list A) :
  forall out : list B,
    List.length out = List.length x ->
    put (map negb (map p x))
        (put (map p x) out (map f (select (map p x) x)))
        (map g (select (map negb (map p x)) x))
    = map (fun xi => if p xi then f xi else g xi) x.
Proof.
  induction x as [|xi x IH]; intros [|o out] Hlen; simpl in Hlen; try discriminate.
  - reflexivity.
  - injection Hlen as Hlen. simpl. destruct (p xi); simpl; rewrite IH by exact Hlen;
      reflexivity.
Qed.

Lemma zeta_entrywise (g : Globals) (x : list R) (m h0 h1 : R) :
  value (zeta x m h0 h1) g
  = map (fun xi => if gtb (1 + m - h0 * xi) 0 && gtb (1 + m - h1 * xi) 0
                   then zeta_pos m h0 h1 xi else zeta_neg m h0 h1 xi) x.
Proof.
  unfold zeta, value, ret. cbn [fst].
  apply (put_both (fun xi => gtb (1 + m - h0 * xi) 0 && gtb (1 + m - h1 * xi) 0)).
  apply length_map.
Qed.

Lemma gtb_true (a b : R) : gtb a b = true <-> b < a.
Proof. unfold gtb. destruct (Rlt_dec b a); split; intros; auto; try discriminate; lra. Qed.

Lemma sqrt_nan_none (y : R) : sqrt_nan y = None <-> y < 0.
Proof.
  unfold sqrt_nan. destruct (Rlt_dec y 0); split; intros; auto; try discriminate; lra.
Qed.

Lemma quot_sign (p m : R) : 0 < m -> (p / (4 * m) < 0 <-> p < 0).
Proof.
  intros Hm. assert (0 < / (4 * m)) by (apply Rinv_0_lt_compat; lra).
  unfold Rdiv. split; intros; nra.
Qed.

(** One entry of [zeta]'s result, by the signs of the two factors
    [a = 1 + m - h0*xi] and [b = 1 + m - h1*xi]. *)
Lemma zeta_entry (g : Globals) (x : list R) (m h0 h1 : R) (i : nat) (xi : R) :
  0 < m ->
  nth_error x i = Some xi ->
  let a := 1 + m - h0 * xi in
  let b := 1 + m - h1 * xi in
  exists v,
    nth_error (value (zeta x m h0 h1) g) i = Some v
    /\ (v = None <-> a * b < 0)
    /\ (a * b < 0 <-> (0 < a /\ b < 0) \/ (a < 0 /\ 0 < b))
    /\ (0 < a -> 0 < b -> v = Some (sqrt (a * b / (4 * m))) /\ 0 < sqrt (a * b / (4 * m)))
    /\ (a <= 0 \/ b <= 0 -> 0 <= a * b ->
        v = Some (- sqrt (a * b / (4 * m))) /\ - sqrt (a * b / (4 * m)) <= 0)
    /\ (a < 0 -> b < 0 -> - sqrt (a * b / (4 * m)) < 0).
Proof.
  intros Hm Hi a b.
  rewrite zeta_entrywise, nth_error_map, Hi. cbn [option_map].
  fold a. fold b. unfold zeta_pos, zeta_neg. fold a. fold b.
  eexists. split; [reflexivity|].
  assert (Hq := quot_sign (a * b) m Hm).
  assert (Hinv : 0 < / (4 * m)) by (apply Rinv_0_lt_compat; lra).
  split; [|split; [|split; [|split]]].
  - destruct (gtb a 0 && gtb b 0) eqn:E.
    + apply andb_true_iff in E. destruct E as [Ea Eb].
      apply gtb_true in Ea, Eb. rewrite sqrt_nan_none. tauto.
    + unfold neg_nan. destruct (sqrt_nan (a * b / (4 * m))) eqn:Es.
      * split; [discriminate|]. intros Hab.
        apply Hq in Hab. apply sqrt_nan_none in Hab. congruence.
      * split; [intros _|reflexivity]. apply Hq, sqrt_nan_none. exact Es.
  - split.
    + intros Hab. destruct (Rlt_dec 0 a); [left; split; nra|].
      destruct (Req_dec a 0) as [E|E]; [rewrite E in Hab; lra|].
      right; split; nra.
    + intros [[? ?]|[? ?]]; nra.
  - intros Ha Hb.
    assert (Ea : gtb a 0 = true) by (apply gtb_true; exact Ha).
    assert (Eb : gtb b 0 = true) by (apply gtb_true; exact Hb).
    rewrite Ea, Eb. cbn [andb]. unfold sqrt_nan.
    assert (0 < a * b / (4 * m)) by (apply Rdiv_lt_0_compat; nra).
    destruct (Rlt_dec (a * b / (4 * m)) 0); [lra|].
    split; [reflexivity|]. apply sqrt_lt_R0. assumption.
  - intros Hab Hp.
    assert (E : gtb a 0 && gtb b 0 = false).
    { apply andb_false_iff. destruct Hab; [left|right];
        (destruct (gtb _ 0) eqn:E; [apply gtb_true in E; lra|reflexivity]). }
    rewrite E. unfold sqrt_nan, neg_nan.
    assert (0 <= a * b / (4 * m)) by (unfold Rdiv; apply Rmult_le_pos; lra).
    destruct (Rlt_dec (a * b / (4 * m)) 0); [lra|].
    split; [reflexivity|]. pose proof (sqrt_pos (a * b / (4 * m))). lra.
  - intros Ha Hb.
    assert (0 < a * b / (4 * m)) by (apply Rdiv_lt_0_compat; nra).
    pose proof (sqrt_lt_R0 _ H). lra.
Qed.

(** Distinct step sizes leave a point where the factors have opposite
    strict signs. *)
Lemma zeta_nan_exists (m h0 h1 : R) :
  0 < m -> h0 <> h1 ->
  exists xi, (1 + m - h0 * xi) * (1 + m - h1 * xi) < 0.
Proof.
  intros Hm Hne.
  assert (Hgen : forall k0 k1, k0 <> k1 -> k0 <> 0 ->
            exists xi, (1 + m - k0 * xi) * (1 + m - k1 * xi) < 0).
  { intros k0 k1 Hk Hk0.
    set (t := / (2 * (1 + (k0 * k1) ^ 2))).
    assert (Ht : 0 < t) by (apply Rinv_0_lt_compat; nra).
    assert (Ht2 : t * (2 * (1 + (k0 * k1) ^ 2)) = 1)
      by (unfold t; field; nra).
    exists ((1 + m) / k0 + (1 + m) * (k0 - k1) * t).
    replace ((1 + m - k0 * ((1 + m) / k0 + (1 + m) * (k0 - k1) * t))
             * (1 + m - k1 * ((1 + m) / k0 + (1 + m) * (k0 - k1) * t)))
      with (- ((1 + m) ^ 2 * (k0 - k1) ^ 2 * (t * (1 - k0 * k1 * t))))
      by (field; exact Hk0).
    assert (0 < 1 - k0 * k1 * t).
    { assert (k0 * k1 * t <= / 2); [|lra].
      apply Rmult_le_reg_r with (2 * (1 + (k0 * k1) ^ 2)); [nra|].
      replace (k0 * k1 * t * (2 * (1 + (k0 * k1) ^ 2)))
        with (k0 * k1 * (t * (2 * (1 + (k0 * k1) ^ 2)))) by ring.
      rewrite Ht2. nra. }
    assert (0 < (1 + m) ^ 2) by nra.
    assert (0 < (k0 - k1) ^ 2).
    { assert (k0 - k1 <> 0) by lra. nra. }
    assert (0 < t * (1 - k0 * k1 * t)) by nra.
    assert (0 < (1 + m) ^ 2 * (k0 - k1) ^ 2) by nra.
    nra. }
  destruct (Req_dec h0 0) as [E0|N0].
  - destruct (Hgen h1 h0) as [xi Hxi]; [congruence|lra|].
    exists xi. lra.
  - apply Hgen; assumption.
Qed.

(** C8, as the code has it. For [m > 0], an entry of [zeta]'s result is NaN
    exactly when the product [a*b] of the factors [a = 1 + m - h0*x] and
    [b = 1 + m - h1*x] is strictly negative, that is when one factor is
    strictly positive and the other strictly negative; for [h0 <> h1] such
    an [x] exists. Everywhere else the entry is a real number:
    [sqrt(a*b/(4m)) > 0] when both factors are positive, and
    [-sqrt(a*b/(4m)) <= 0] otherwise, which is strictly negative when both
    factors are negative. *)
Theorem zeta_nan_iff_opposite_signs (g : Globals) (m h0 h1 : R) :
  0 < m ->
  (forall (x : list R) (i : nat) (xi : R),
     nth_error x i = Some xi ->
     let a := 1 + m - h0 * xi in
     let b := 1 + m - h1 * xi in
     exists v,
       nth_error (value (zeta x m h0 h1) g) i = Some v
       /\ (v = None <-> a * b < 0)
       /\ (a * b < 0 <-> (0 < a /\ b < 0) \/ (a < 0 /\ 0 < b))
       /\ (0 < a -> 0 < b ->
           v = Some (sqrt (a * b / (4 * m))) /\ 0 < sqrt (a * b / (4 * m)))
       /\ (a <= 0 \/ b <= 0 -> 0 <= a * b ->
           v = Some (- sqrt (a * b / (4 * m)))
           /\ - sqrt (a * b / (4 * m)) <= 0)
       /\ (a < 0 -> b < 0 -> - sqrt (a * b / (4 * m)) < 0))
  /\ (h0 <> h1 ->
      exists xi,
        (1 + m - h0 * xi) * (1 + m - h1 * xi) < 0
        /\ value (zeta [xi] m h0 h1) g = [None]).
Proof.
  intros Hm. split.
  - intros x i xi Hi. apply zeta_entry; assumption.
  - intros Hne. destruct (zeta_nan_exists m h0 h1 Hm Hne) as [xi Hxi].
    exists xi. split; [exact Hxi|].
    destruct (zeta_entry g [xi] m h0 h1 0 xi Hm eq_refl)
      as (v & Hv & Hnan & _).
    rewrite zeta_entrywise in *. cbn [map nth_error] in *.
    injection Hv as Hv. rewrite Hv. f_equal. apply Hnan. exact Hxi.
Qed.

Lemma zeta_nan_iff_opposite_signs_witness :
  (forall (x : list R) (i : nat) (xi : R),
     nth_error x i = Some xi ->
     let a := 1 + 1 - 1 * xi in
     let b := 1 + 1 - 2 * xi in
     exists v,
       nth_error (value (zeta x 1 1 2) (MkGlobals 2 0.2 2)) i = Some v
       /\ (v = None <-> a * b < 0)
       /\ (a * b < 0 <-> (0 < a /\ b < 0) \/ (a < 0 /\ 0 < b))
       /\ (0 < a -> 0 < b ->
           v = Some (sqrt (a * b / (4 * 1))) /\ 0 < sqrt (a * b / (4 * 1)))
       /\ (a <= 0 \/ b <= 0 -> 0 <= a * b ->
           v = Some (- sqrt (a * b / (4 * 1)))
           /\ - sqrt (a * b / (4 * 1)) <= 0)
       /\ (a < 0 -> b < 0 -> - sqrt (a * b / (4 * 1)) < 0))
  /\ (1 <> 2 ->
      exists xi,
        (1 + 1 - 1 * xi) * (1 + 1 - 2 * xi) < 0
        /\ value (zeta [xi] 1 1 2) (MkGlobals 2 0.2 2) = [None]).
Proof.
  apply (zeta_nan_iff_opposite_signs (MkGlobals 2 0.2 2) 1 1 2). lra.
Defined.

(** C8 as stated fails with [m = 1], [h0 = 1], [h1 = 2]. At [x = 1]
    precisely one factor is positive (the other is 0), yet no square root of
    a negative number is taken: the entry is 0. At [x = 3] neither factor is
    positive and the product is positive, yet the entry is [-1]: its sign is
    not the sign of the product. *)
Lemma zeta_sign_is_not_product_sign :
  value (zeta [1; 3] 1 1 2) (MkGlobals 2 0.2 2) = [Some 0; Some (-1)]
  /\ (0 < 1 + 1 - 1 * 1 /\ ~ 0 < 1 + 1 - 2 * 1)
  /\ (~ 0 < 1 + 1 - 1 * 3 /\ ~ 0 < 1 + 1 - 2 * 3
      /\ 0 < (1 + 1 - 1 * 3) * (1 + 1 - 2 * 3)).
Proof.
  split; [|lra].
  rewrite zeta_entrywise. cbn [map].
  assert (E1 : gtb (1 + 1 - 2 * 1) 0 = false).
  { destruct (gtb (1 + 1 - 2 * 1) 0) eqn:E; [apply gtb_true in E; lra|reflexivity]. }
  assert (E3 : gtb (1 + 1 - 1 * 3) 0 = false).
  { destruct (gtb (1 + 1 - 1 * 3) 0) eqn:E; [apply gtb_true in E; lra|reflexivity]. }
  rewrite E1, E3, andb_false_r. cbn [andb].
  unfold zeta_neg, sqrt_nan, neg_nan.
  destruct (Rlt_dec ((1 + 1 - 1 * 1) * (1 + 1 - 2 * 1) / (4 * 1)) 0); [lra|].
  destruct (Rlt_dec ((1 + 1 - 1 * 3) * (1 + 1 - 2 * 3) / (4 * 1)) 0); [lra|].
  cbn [option_map].
  replace ((1 + 1 - 1 * 1) * (1 + 1 - 2 * 1) / (4 * 1)) with 0 by field.
  replace ((1 + 1 - 1 * 3) * (1 + 1 - 2 * 3) / (4 * 1)) with 1 by field.
  rewrite sqrt_0, sqrt_1, Ropp_0. reflexivity.
Qed.

End LinkFunctionFacts.

(** ** What the evaluators read and write *)

Module EvaluatorFacts.
Import Env Np.
Local Open Scope R_scope.

(** C2, as the code has it. No call of [poly_gd], [poly_polyak],
    [poly_cyclical], [sigma] (either definition), [zeta], [sigma_r] or
    [cyclical_rate] changes a global. [sigma], [zeta] and [cyclical_rate]
    return a value that depends on their arguments alone. [poly_gd] and
    [sigma_r] return a value fixed by their arguments together with the
    globals [mu] and [L], which they read. [poly_polyak] and [poly_cyclical]
    return a value that does not depend on the globals [mu] and [L]. *)
Theorem evaluators_read_globals_only (g1 g2 : Globals) :
  (* no call changes a global *)
  ((forall x t, globals_after (ResidualPolynomial.poly_gd x t) g1 = g1)
   /\ (forall x low high d,
         globals_after (ResidualPolynomial.poly_polyak x low high d) g1 = g1)
   /\ (forall x mu1 L1 mu2 L2 d,
         globals_after (ResidualPolynomial.poly_cyclical x mu1 L1 mu2 L2 d) g1 = g1)
   /\ (forall x m h, globals_after (LinkFunction.sigma x m h) g1 = g1)
   /\ (forall x m h0 h1, globals_after (LinkFunction.zeta x m h0 h1) g1 = g1)
   /\ (forall x m r, globals_after (RobustRegion.sigma_r x m r) g1 = g1)
   /\ (forall x m h0 h1, globals_after (Landscape.sigma x m h0 h1) g1 = g1)
   /\ (forall kappa Rs,
         globals_after (RateComparison.cyclical_rate kappa Rs) g1 = g1))
  (* the value of these does not depend on any global *)
  /\ ((forall x m h,
         value (LinkFunction.sigma x m h) g1 = value (LinkFunction.sigma x m h) g2)
      /\ (forall x m h0 h1,
            value (LinkFunction.zeta x m h0 h1) g1
            = value (LinkFunction.zeta x m h0 h1) g2)
      /\ (forall x m h0 h1,
            value (Landscape.sigma x m h0 h1) g1
            = value (Landscape.sigma x m h0 h1) g2)
      /\ (forall kappa Rs,
            value (RateComparison.cyclical_rate kappa Rs) g1
            = value (RateComparison.cyclical_rate kappa Rs) g2))
  (* the value of these depends on the globals through mu and L only *)
  /\ (glob_mu g1 = glob_mu g2 -> glob_L g1 = glob_L g2 ->
      (forall x t,
         value (ResidualPolynomial.poly_gd x t) g1
         = value (ResidualPolynomial.poly_gd x t) g2)
      /\ (forall x m r,
            value (RobustRegion.sigma_r x m r) g1
            = value (RobustRegion.sigma_r x m r) g2))
  (* the value of these does not depend on mu and L *)
  /\ (glob_t g1 = glob_t g2 ->
      (forall x low high d,
         value (ResidualPolynomial.poly_polyak x low high d) g1
         = value (ResidualPolynomial.poly_polyak x low high d) g2)
      /\ (forall x mu1 L1 mu2 L2 d,
            value (ResidualPolynomial.poly_cyclical x mu1 L1 mu2 L2 d) g1
            = value (ResidualPolynomial.poly_cyclical x mu1 L1 mu2 L2 d) g2)).
Proof.
  split; [|split; [|split]].
  - repeat split; intros; reflexivity.
  - repeat split; intros; reflexivity.
  - intros Hmu HL. split; intros.
    + unfold ResidualPolynomial.poly_gd, value, bind, read, ret. cbn [fst snd].
      rewrite Hmu, HL. reflexivity.
    + unfold RobustRegion.sigma_r, value, bind, read, ret. cbn [fst snd].
      rewrite Hmu, HL. reflexivity.
  - intros Ht. split; intros.
    + unfold ResidualPolynomial.poly_polyak, value, bind, read, ret.
      cbn [fst snd]. rewrite Ht. reflexivity.
    + unfold ResidualPolynomial.poly_cyclical, value, bind, read, ret.
      cbn [fst snd]. rewrite Ht. reflexivity.
Qed.

Lemma evaluators_read_globals_only_witness :
  value (ResidualPolynomial.poly_gd 1 3) (MkGlobals 2 0.2 2)
  = value (ResidualPolynomial.poly_gd 1 3) (MkGlobals 18 0.2 2)
  /\ value (ResidualPolynomial.poly_polyak 1 0.2 2 4) (MkGlobals 4 0.2 2)
     = value (ResidualPolynomial.poly_polyak 1 0.2 2 4) (MkGlobals 4 0.1 2).
Proof.
  split.
  - apply (proj1 (proj1 (proj2 (proj2 (evaluators_read_globals_only
             (MkGlobals 2 0.2 2) (MkGlobals 18 0.2 2)))) eq_refl eq_refl)).
  - apply (proj1 (proj2 (proj2 (proj2 (evaluators_read_globals_only
             (MkGlobals 4 0.2 2) (MkGlobals 4 0.1 2)))) eq_refl)).
Defined.

(** C2 as stated fails for [poly_gd]: the same call [poly_gd(1, 1)] returns
    [1/11] under the globals [mu, L = 0.2, 2] of the residual-polynomial
    cell and [1/21] under the globals [mu, L = 0.1, 2] of the robust-region
    cell. *)
Lemma poly_gd_depends_on_globals :
  value (ResidualPolynomial.poly_gd 1 1) (MkGlobals 2 0.2 2) = 1 / 11
  /\ value (ResidualPolynomial.poly_gd 1 1) (MkGlobals 2 0.1 2) = 1 / 21.
Proof.
  unfold ResidualPolynomial.poly_gd, value, bind, read, ret.
  cbn [fst snd glob_mu glob_L].
  rewrite !pow_1. split; lra.
Qed.

End EvaluatorFacts.

(** ** Inner spectral bounds *)

Module SpectralBoundsFacts.
Import Env Np SpectralDensity.
Local Open Scope R_scope.










End SpectralBoundsFacts.

(** ** The optimal momentum, loops over cells and [linspace] *)

Module ClosedFormFacts.
Import Env Np NpFacts.
Local Open Scope R_scope.

(** *** The optimal cyclical momentum *)



(** *** The inner bounds and the link function at the ends of the spectrum *)




(** *** Loops over cells *)

Lemma for_each_pure {A B : Type} (xs : list A) (body : A -> Call B) :
  (forall x g, globals_after (body x) g = g) ->
  forall g,
    value (Cell.for_each xs body) g = map (fun x => value (body x) g) xs
    /\ globals_after (Cell.for_each xs body) g = g.
Proof.
  intros Hpure. induction xs as [|x xs IH]; intros g; [split; reflexivity|].
  pose proof (IH g) as [IHv IHg]. pose proof (Hpure x g) as Hx.
  unfold value, globals_after in *. cbn [Cell.for_each map]. unfold bind, ret.
  destruct (body x g) as [b g1] eqn:Ex. cbn [fst snd] in Hx. subst g1.
  destruct (Cell.for_each xs body g) as [bs g2] eqn:Ef. cbn [fst snd] in *.
  subst. split; reflexivity.
Qed.


(** *** The constant step-size link function *)




(** *** [linspace] *)

Lemma linspace_length (a b : R) (num : nat) : List.length (linspace a b num) = num.
Proof. unfold linspace. rewrite length_map, length_seq. reflexivity. Qed.


Lemma linspace_last (a b d : R) (n : nat) :
  last (linspace a b (S (S n))) d = b.
Proof.
  unfold linspace. rewrite seq_S, map_app. cbn [map]. rewrite last_last.
  cbn [Nat.add]. replace (S (S n) - 1)%nat with (S n) by lia.
  assert (0 < INR (S n)) by (apply lt_0_INR; lia).
  field. lra.
Qed.

Lemma last_app_nonempty {A : Type} (l1 l2 : list A) (d : A) :
  l2 <> [] -> last (l1 ++ l2) d = last l2 d.
Proof.
  intros Hne. rewrite (app_removelast_last d Hne) at 1.
  rewrite app_assoc. apply last_last.
Qed.

(** *** Cells and the module-level variables *)

(** A loop whose variable is the module-level [L] leaves the last value of
    its range in [L]. *)
Lemma loop_over_L_leaves_last {B : Type} (xs : list R) (rest : R -> Call B) :
  (forall v g, globals_after (rest v) g = g) ->
  forall g,
    xs <> [] ->
    globals_after
      (Cell.for_each xs (fun Lv => bind (Cell.assign_L Lv) (fun _ => rest Lv))) g
    = MkGlobals (glob_t g) (glob_mu g) (last xs 0).
Proof.
  intros Hpure. induction xs as [|x xs IH]; intros g Hne; [congruence|].
  unfold globals_after in *. cbn [Cell.for_each]. unfold bind, ret, Cell.assign_L.
  pose proof (Hpure x (MkGlobals (glob_t g) (glob_mu g) x)) as Hx.
  destruct (rest x _) as [b g1] eqn:Ex. cbn [snd] in Hx. subst g1.
  destruct xs as [|y ys].
  - reflexivity.
  - specialize (IH (MkGlobals (glob_t g) (glob_mu g) x) ltac:(discriminate)).
    unfold bind, ret, Cell.assign_L in IH.
    destruct (Cell.for_each (y :: ys) _ _) as [bs g2] eqn:Ef.
    cbn [snd] in IH |- *. rewrite IH. reflexivity.
Qed.

End ClosedFormFacts.

(** ** The heavy-ball loops over the reals *)

Module HeavyBallLoopFacts.
Import Env Np NpFacts ResidualPolynomial ResidualPolynomialFacts.
Local Open Scope R_scope.




Ltac hb_unfold :=
  unfold HeavyBall2D.vadd, HeavyBall2D.vsub, HeavyBall2D.smul, HeavyBall2D.matvec, HeavyBall2D.dot, HeavyBall2D.h, HeavyBall2D.m_polyak;
  cbn [HeavyBall2D.v0 HeavyBall2D.v1 HeavyBall2D.row0 HeavyBall2D.row1 HeavyBall2D.add HeavyBall2D.sub HeavyBall2D.mul HeavyBall2D.div HeavyBall2D.sqrt HeavyBall2D.sq
       HeavyBall2D.zero HeavyBall2D.one HeavyBall2D.two R_Scalar].

Lemma vec2_eq (a b c d : R) : a = c -> b = d -> HeavyBall2D.Vec2 a b = HeavyBall2D.Vec2 c d.
Proof. intros -> ->. reflexivity. Qed.




(** *** The cyclical loop at gap 0 *)







Section Generic.
Context {A : Type} `{HeavyBall2D.Scalar A}.

Lemma for_range_invariant (body : nat -> HeavyBall2D.loop_state A -> option (HeavyBall2D.loop_state A))
      (Inv : HeavyBall2D.loop_state A -> Prop) :
  (forall i s s', Inv s -> body i s = Some s' -> Inv s') ->
  forall n i0 s s', Inv s -> HeavyBall2D.for_range body i0 n s = Some s' -> Inv s'.
Proof.
  intros Hstep n. induction n as [|n IH]; intros i0 s s' Hs E.
  - injection E as <-. exact Hs.
  - cbn [HeavyBall2D.for_range] in E. destruct (body i0 s) as [s1|] eqn:E1; [|discriminate].
    eapply IH; [|exact E]. eapply Hstep; eauto.
Qed.

(** Both loops run to their end without an index error, fill arrays of
    [max_iter] rows, and leave in row [i] the point pass [i] started from. *)
Lemma loops_fill_every_row
        (Hess : HeavyBall2D.mat2 A) (x_init : HeavyBall2D.vec2 A) (max_iter : nat) (L mu R : A) :
  exists am ac,
    HeavyBall2D.all_iterates_momentum Hess x_init max_iter L mu = Some am
    /\ HeavyBall2D.all_iterates_cyclical Hess x_init max_iter L mu R = Some ac
    /\ List.length am = max_iter
    /\ List.length ac = max_iter
    /\ (forall i, (i < max_iter)%nat ->
          exists s c,
            HeavyBall2D.momentum_after Hess x_init max_iter L mu i = Some s
            /\ HeavyBall2D.cyclical_after Hess x_init max_iter L mu R i = Some c
            /\ nth_error am i = Some (HeavyBall2D.xt s)
            /\ nth_error ac i = Some (HeavyBall2D.xt c)).
Proof.
  destruct (HeavyBall2DFacts.for_range_rows _ (HeavyBall2D.momentum_init x_init max_iter)
              (HeavyBall2DFacts.momentum_stores Hess L mu) max_iter)
    as (sf & Ef & Hlen & Hrows).
  { cbn [HeavyBall2D.momentum_init HeavyBall2D.all_iterates]. rewrite HeavyBall2DFacts.zeros_length. lia. }
  destruct (HeavyBall2DFacts.for_range_rows _ (HeavyBall2D.cyclical_init x_init max_iter)
              (HeavyBall2DFacts.cyclical_stores Hess L mu R) max_iter)
    as (cf & Ecf & Hclen & Hcrows).
  { cbn [HeavyBall2D.cyclical_init HeavyBall2D.all_iterates]. rewrite HeavyBall2DFacts.zeros_length. lia. }
  exists (HeavyBall2D.all_iterates sf), (HeavyBall2D.all_iterates cf).
  unfold HeavyBall2D.all_iterates_momentum, HeavyBall2D.all_iterates_cyclical, HeavyBall2D.momentum_after,
    HeavyBall2D.cyclical_after. rewrite Ef, Ecf.
  cbn [HeavyBall2D.momentum_init HeavyBall2D.cyclical_init HeavyBall2D.all_iterates] in Hlen, Hclen.
  rewrite HeavyBall2DFacts.zeros_length in Hlen, Hclen.
  repeat split; auto.
  intros i Hi. destruct (Hrows i Hi) as (s & Es & Hs).
  destruct (Hcrows i Hi) as (c & Ec & Hc). exists s, c. auto.
Qed.

End Generic.

Lemma momentum_body_origin (Hess : HeavyBall2D.mat2 R) (L mu : R) (i : nat)
      (s s' : HeavyBall2D.loop_state R) :
  HeavyBall2D.xt s = HeavyBall2D.Vec2 0 0 /\ HeavyBall2D.xt_old s = HeavyBall2D.Vec2 0 0 ->
  HeavyBall2D.momentum_body Hess L mu i s = Some s' ->
  HeavyBall2D.xt s' = HeavyBall2D.Vec2 0 0 /\ HeavyBall2D.xt_old s' = HeavyBall2D.Vec2 0 0.
Proof.
  intros [Hx Ho] E. unfold HeavyBall2D.momentum_body in E.
  destruct (HeavyBall2D.set_row i (HeavyBall2D.xt s) (HeavyBall2D.all_iterates s)); [|discriminate].
  injection E as <-. cbn [HeavyBall2D.xt HeavyBall2D.xt_old]. rewrite Hx, Ho. split; [|reflexivity].
  destruct (i =? 0)%nat; hb_unfold; apply vec2_eq; ring.
Qed.

Lemma cyclical_body_origin (Hess : HeavyBall2D.mat2 R) (L mu gap : R) (i : nat)
      (s s' : HeavyBall2D.loop_state R) :
  HeavyBall2D.xt s = HeavyBall2D.Vec2 0 0 /\ HeavyBall2D.xt_old s = HeavyBall2D.Vec2 0 0 ->
  HeavyBall2D.cyclical_body Hess L mu gap i s = Some s' ->
  HeavyBall2D.xt s' = HeavyBall2D.Vec2 0 0 /\ HeavyBall2D.xt_old s' = HeavyBall2D.Vec2 0 0.
Proof.
  intros [Hx Ho] E. unfold HeavyBall2D.cyclical_body in E.
  destruct (HeavyBall2D.set_row i (HeavyBall2D.xt s) (HeavyBall2D.all_iterates s)); [|discriminate].
  rewrite Hx, Ho in E.
  destruct (i =? 0)%nat; [|destruct (i mod 2 =? 0)%nat; [|destruct (i mod 2 =? 1)%nat]];
    injection E as <-; cbn [HeavyBall2D.xt HeavyBall2D.xt_old]; (split; [|reflexivity]);
    try reflexivity; hb_unfold; apply vec2_eq; ring.
Qed.

(** X3. Started at the minimiser [x_init = (0, 0)], both loops stay there:
    every row of both arrays is [(0, 0)], for every Hessian, and for
    [0 < mu < L] and [0 <= R < 1] where the step sizes are defined. *)
Theorem origin_is_fixed_point
        (Hess : HeavyBall2D.mat2 R) (max_iter : nat) (L mu gap : R) (i : nat) :
  0 < mu < L -> 0 <= gap < 1 ->
  (i < max_iter)%nat ->
  exists am ac,
    HeavyBall2D.all_iterates_momentum Hess (HeavyBall2D.Vec2 0 0) max_iter L mu = Some am
    /\ HeavyBall2D.all_iterates_cyclical Hess (HeavyBall2D.Vec2 0 0) max_iter L mu gap = Some ac
    /\ nth_error am i = Some (HeavyBall2D.Vec2 0 0)
    /\ nth_error ac i = Some (HeavyBall2D.Vec2 0 0).
Proof.
  intros _ _ Hi.
  destruct (loops_fill_every_row Hess (HeavyBall2D.Vec2 0 0) max_iter L mu gap)
    as (am & ac & Eam & Eac & _ & _ & Hrows).
  destruct (Hrows i Hi) as (s & c & Es & Ec & Hs & Hc).
  exists am, ac. repeat split; auto.
  - rewrite Hs. f_equal.
    apply (for_range_invariant (HeavyBall2D.momentum_body Hess L mu)
             (fun s => HeavyBall2D.xt s = HeavyBall2D.Vec2 0 0 /\ HeavyBall2D.xt_old s = HeavyBall2D.Vec2 0 0)
             (momentum_body_origin Hess L mu) i 0%nat
             (HeavyBall2D.momentum_init (HeavyBall2D.Vec2 0 0) max_iter) s); [split; reflexivity|exact Es].
  - rewrite Hc. f_equal.
    apply (for_range_invariant (HeavyBall2D.cyclical_body Hess L mu gap)
             (fun s => HeavyBall2D.xt s = HeavyBall2D.Vec2 0 0 /\ HeavyBall2D.xt_old s = HeavyBall2D.Vec2 0 0)
             (cyclical_body_origin Hess L mu gap) i 0%nat
             (HeavyBall2D.cyclical_init (HeavyBall2D.Vec2 0 0) max_iter) c); [split; reflexivity|exact Ec].
Qed.

Lemma origin_is_fixed_point_witness :
  0 < 0.2 < 2 /\ 0 <= 0.9 < 1 /\ (3 < 10)%nat
  /\ exists am ac,
       HeavyBall2D.all_iterates_momentum Inputs2D.Hess (HeavyBall2D.Vec2 0 0) 10 2 0.2
       = Some am
       /\ HeavyBall2D.all_iterates_cyclical Inputs2D.Hess (HeavyBall2D.Vec2 0 0) 10 2 0.2 0.9
          = Some ac
       /\ nth_error am 3 = Some (HeavyBall2D.Vec2 0 0)
       /\ nth_error ac 3 = Some (HeavyBall2D.Vec2 0 0).
Proof.
  split; [lra|]. split; [lra|]. split; [lia|].
  apply (origin_is_fixed_point Inputs2D.Hess 10 2 0.2 0.9 3); [lra|lra|lia].
Defined.

End HeavyBallLoopFacts.

(** ** Cells that assign module-level variables *)

Module CellFacts.
Import Env Np NpFacts ResidualPolynomial ResidualPolynomialFacts ClosedFormFacts.
Local Open Scope R_scope.

Lemma link_constant_cell_globals (g : Globals) :
  globals_after Cell.link_constant_cell g = MkGlobals (glob_t g) (glob_mu g) 1.
Proof.
  unfold Cell.link_constant_cell.
  rewrite loop_over_L_leaves_last.
  - f_equal.
    rewrite last_app_nonempty.
    + apply (linspace_last 2 1 0 18).
    + intros E. apply (f_equal (@List.length R)) in E.
      rewrite linspace_length in E. discriminate.
  - intros v g0. unfold globals_after, bind, read.
    apply (for_each_pure (linspace 0 2 1000)). intros x g1. reflexivity.
  - intros E. apply (f_equal (@List.length R)) in E.
    rewrite length_app, !linspace_length in E. discriminate.
Qed.

Lemma value_bind {A B : Type} (c : Call A) (k : A -> Call B) (g : Globals) :
  value (bind c k) g = value (k (value c g)) (globals_after c g).
Proof. unfold value, globals_after, bind. destruct (c g). reflexivity. Qed.


(** X6. The loop variable of the constant step-size cell is the
    module-level [L]: the cell leaves [L = 1] (the last value of its
    range) and [mu], [t] untouched, so the cyclical link-function cell that
    runs after it computes [rho] and its bounds from [L = 1]. *)
Theorem link_constant_cell_rebinds_L (g : Globals) :
  globals_after Cell.link_constant_cell g = MkGlobals (glob_t g) (glob_mu g) 1
  /\ value (bind Cell.link_constant_cell (fun _ => Cell.link_cyclical_cell)) g
     = value Cell.link_cyclical_cell (MkGlobals (glob_t g) (glob_mu g) 1).
Proof.
  split; [apply link_constant_cell_globals|].
  rewrite value_bind, link_constant_cell_globals. reflexivity.
Qed.

















End CellFacts.

(** ** The robust region, the landscape link function and the rates *)

Module RobustRegionFacts.
Import Env Np NpFacts ClosedFormFacts CellFacts.
Local Open Scope R_scope.






(** *** [sigma] of the landscape cell, [zeta] and [sigma_r] *)






(** *** [varphi] and the rates *)






End RobustRegionFacts.

(** ** The landscape cells *)

Module LandscapeFacts.
Import Env Np NpFacts ClosedFormFacts CellFacts RobustRegionFacts.
Local Open Scope R_scope.

(** *** Regularisation of the spectrum *)




Lemma fold_Rmin_ge (rest : list R) (x lo : R) :
  lo <= x -> (forall y, In y rest -> lo <= y) -> lo <= fold_left Rmin rest x.
Proof.
  revert x; induction rest as [|z rest IH]; intros x Hx Hall; simpl; [exact Hx|].
  apply IH.
  - unfold Rmin. destruct (Rle_dec x z); [exact Hx|]. apply Hall. left. reflexivity.
  - intros y Hy. apply Hall. right. exact Hy.
Qed.



(** *** The landscape at the optimal step sizes *)






End LandscapeFacts.

(** ** Frame files never overwrite each other *)

Module FramePathFacts.
Import Frames.

Lemma to_uint_normal (i : nat) : Decimal.unorm (Nat.to_uint i) = Nat.to_uint i.
Proof. rewrite <- DecimalNat.Unsigned.to_of, DecimalNat.Unsigned.of_to. reflexivity. Qed.

Lemma to_uint_not_nil (i : nat) : Nat.to_uint i <> Decimal.Nil.
Proof.
  rewrite <- to_uint_normal. unfold Decimal.unorm.
  destruct (Decimal.nzhead (Nat.to_uint i)); discriminate.
Qed.

(** Reading a padded index back gives the digits of the index, up to leading
    zeros. *)
Lemma fmt_02d_parse (i : nat) :
  exists d, NilZero.uint_of_string (fmt_02d i) = Some d /\ Decimal.unorm d = Nat.to_uint i.
Proof.
  pose proof (NilZero.usu _ (to_uint_not_nil i)) as U.
  unfold fmt_02d. cbv zeta.
  destruct (NilZero.string_of_uint (Nat.to_uint i)) as [|a [|b s]] eqn:E.
  - discriminate U.
  - exists (Decimal.D0 (Nat.to_uint i)). split; [|rewrite DecimalFacts.unorm_D0; apply to_uint_normal].
    cbn [String.length append]. 
    unfold NilZero.uint_of_string in *. cbn [NilEmpty.uint_of_string] in *.
    rewrite U. reflexivity.
  - exists (Nat.to_uint i). split; [exact U | apply to_uint_normal].
Qed.

Lemma fmt_02d_inj (i j : nat) : fmt_02d i = fmt_02d j -> i = j.
Proof.
  intros E.
  destruct (fmt_02d_parse i) as (d & Hd & Ud).
  destruct (fmt_02d_parse j) as (d' & Hd' & Ud').
  rewrite E in Hd. rewrite Hd in Hd'. injection Hd' as <-.
  apply DecimalNat.Unsigned.to_uint_inj. congruence.
Qed.

Lemma append_inj_l (p s t : string) : (p ++ s = p ++ t -> s = t)%string.
Proof. induction p as [|a p IH]; cbn; intros E; [exact E|]. injection E as E. auto. Qed.

Lemma append_inj_r (s t q : string) :
  String.length s = String.length t -> (s ++ q = t ++ q)%string -> s = t.
Proof.
  revert t. induction s as [|a s IH]; intros [|b t] L E; cbn in *; try discriminate.
  - reflexivity.
  - injection L as L. 
    injection E as -> E. f_equal. auto.
Qed.

Lemma string_length_append (s t : string) :
  String.length (s ++ t)%string = String.length s + String.length t.
Proof. induction s as [|a s IH]; cbn; [reflexivity|]. rewrite IH. reflexivity. Qed.

Lemma f_path_inj (p : string) (i j : nat) :
  (p ++ fmt_02d i ++ ".png" = p ++ fmt_02d j ++ ".png")%string -> i = j.
Proof.
  intros E. apply append_inj_l in E. apply fmt_02d_inj.
  apply append_inj_r with (q := ".png"%string); [|exact E].
  apply (f_equal String.length) in E. rewrite !string_length_append in E. lia.
Qed.

Lemma range3_2_19_2_even (t : nat) : In t idx_residual -> t = 2 * (t / 2).
Proof.
  unfold idx_residual, range3. intros Hin. apply in_map_iff in Hin.
  destruct Hin as (k & <- & _).
  replace (2 + k * 2) with ((1 + k) * 2) by lia.
  rewrite Nat.div_mul by discriminate. lia.
Qed.

(** X15. Within each frame loop two passes never write the same file: the
    path is an injective function of the loop index, for all indices (also
    those of three digits and more), and in the residual-polynomial loop
    for the values of [t] the loop takes. *)
Theorem frame_paths_never_collide :
  (forall i j, f_path_comparison i = f_path_comparison j -> i = j)
  /\ (forall i j, f_path_link_constant i = f_path_link_constant j -> i = j)
  /\ (forall i j, f_path_link_cyclical i = f_path_link_cyclical j -> i = j)
  /\ (forall i j, f_path_robust i = f_path_robust j -> i = j)
  /\ (forall i j, f_path_rate i = f_path_rate j -> i = j)
  /\ (forall i j, f_path_asymptotic i = f_path_asymptotic j -> i = j)
  /\ (forall t t', In t idx_residual -> In t' idx_residual ->
        f_path_residual t = f_path_residual t' -> t = t').
Proof.
  repeat split; try (intros i j E; exact (f_path_inj _ i j E)).
  - intros t t' Ht Ht' E. apply f_path_inj in E.
    rewrite (range3_2_19_2_even t Ht), (range3_2_19_2_even t' Ht'), E. reflexivity.
Qed.

End FramePathFacts.
